(* Shallow embedding of the go-clamd client (clamd.go): connection set-up,
   the command helpers built on [simpleCommand], STATS aggregation, the
   INSTREAM upload of [ScanStream], and the goroutines that close the
   connection. *)

From Stdlib Require Import List String Ascii ZArith Lia Bool.
From Stdlib Require Import Init.Byte.
Import ListNotations.
Open Scope string_scope.

(** * Go values *)

(** A Go [error] is represented by its message. *)
Definition error := string.

(** Results of a Go call as seen by its caller: a value with a nil error,
    a non-nil error, a runtime panic, or a goroutine blocked forever. *)
Inductive outcome (A : Type) : Type :=
| Ret (a : A)
| Fail (e : error)
| Panic (msg : string)
| Block.
Arguments Ret {A} a.
Arguments Fail {A} e.
Arguments Panic {A} msg.
Arguments Block {A}.

(** [type ScanResult struct] *)
Record ScanResult := mkScanResult {
  Raw : string;
  Description : string;
  Path : string;
  Hash : string;
  Size : Z;
  Status : string
}.

(** [type Stats struct] *)
Record Stats := mkStats {
  Pools : string;
  State : string;
  Threads : string;
  Memstats : string;
  Queue : string
}.

(** [stats := &Stats{}] *)
Definition empty_Stats : Stats := mkStats "" "" "" "" "".

(** [type Clamd struct { address string }] *)
Record Clamd := mkClamd { address : string }.

(** [func NewClamd(address string) *Clamd] *)
Definition NewClamd (a : string) : Clamd := mkClamd a.

(** * Go library functions used by clamd.go *)

(** [strings.HasPrefix(s, p)] *)
Definition HasPrefix (s p : string) : bool := String.prefix p s.

(** The slice expression [s[i:]]; [None] is the runtime panic
    "slice bounds out of range" raised when [i > len(s)]. *)
Definition slice_from (i : nat) (s : string) : option string :=
  if Nat.leb i (String.length s) then Some (substring i (String.length s - i) s)
  else None.

Fixpoint trim_left_space (s : string) : string :=
  match s with
  | String c r => if Ascii.eqb c " "%char then trim_left_space r else s
  | EmptyString => EmptyString
  end.

Definition rev_string (s : string) : string :=
  string_of_list_ascii (rev (list_ascii_of_string s)).

(** [strings.Trim(s, " ")]: drop leading and trailing spaces. *)
Definition Trim_space (s : string) : string :=
  rev_string (trim_left_space (rev_string (trim_left_space s))).

(** Decimal digits of a Go [int], as printed by [%v]. *)
Fixpoint digits_of_nat (fuel n : nat) (acc : string) : string :=
  match fuel with
  | O => acc
  | S f =>
      let d := String (ascii_of_nat (48 + n mod 10)) acc in
      if Nat.ltb n 10 then d else digits_of_nat f (n / 10) d
  end.

Definition itoa (z : Z) : string :=
  let n := Z.to_nat (Z.abs z) in
  (if (z <? 0)%Z then "-" else "") ++ digits_of_nat (S n) n "".

(** [fmt.Sprintf("%v", s)] for [s : *ScanResult]: [&{f1 f2 ...}]. *)
Definition fmt_v (s : ScanResult) : string :=
  "&{" ++ Raw s ++ " " ++ Description s ++ " " ++ Path s ++ " " ++ Hash s
  ++ " " ++ itoa (Size s) ++ " " ++ Status s ++ "}".

(** The part of [*url.URL] that [newConnection] reads. *)
Record URL := mkURL { Scheme : string; Host : string; UPath : string }.

(** * The connection and its environment *)

(** The two dialers of conn.go. *)
Inductive endpoint :=
| TcpEndpoint (hostport : string)   (* newCLAMDTcpConn(u.Host) *)
| UnixEndpoint (path : string).     (* newCLAMDUnixConn(path) *)

(** Observable actions of an operation, in program order. *)
Inductive event :=
| EvParse (s : string)            (* url.Parse(c.address) *)
| EvDial (e : endpoint)           (* connection attempt *)
| EvSendCommand (cmd : string)    (* conn.sendCommand(cmd) *)
| EvSendChunk (data : list byte)  (* conn.sendChunk(data) *)
| EvSendEOF                       (* conn.sendEOF() *)
| EvReadResponse.                 (* conn.readResponse() *)

(** What the outside world answers: Go's [url.Parse], the dialers, the
    writes of the connection (the [k]-th write of a connection fails with
    [e_write k = Some err]), and the records the decoder of
    [readResponse] puts on its channel. *)
Record env := mkEnv {
  e_parse : string -> error + URL;
  e_dial : endpoint -> option error;
  e_write : nat -> option error;
  e_reply : list ScanResult
}.

(** [func (c *Clamd) newConnection() (conn *CLAMDConn, err error)] *)
Definition newConnection (E : env) (c : Clamd) : list event * option error :=
  match e_parse E (address c) with
  | inl err => ([EvParse (address c)], Some err)
  | inr u =>
      let ep :=
        if String.eqb (Scheme u) "tcp" then TcpEndpoint (Host u)
        else if String.eqb (Scheme u) "unix" then UnixEndpoint (UPath u)
        else UnixEndpoint (address c) in
      ([EvParse (address c); EvDial ep], e_dial E ep)
  end.

(** [func (c *Clamd) simpleCommand(command string) (chan *ScanResult, error)].
    On success the channel is returned; [inr rs] stands for it, [rs] being
    the records it delivers before it is closed. The command is the first
    write on the connection. The closing goroutine is modelled in
    [Closing] below; the timing output is left out. *)
Definition simpleCommand (E : env) (c : Clamd) (command : string)
  : list event * (error + list ScanResult) :=
  let '(t, r) := newConnection E c in
  match r with
  | Some err => (t, inl err)
  | None =>
      match e_write E 0 with
      | Some err => ((t ++ [EvSendCommand command])%list, inl err)
      | None => ((t ++ [EvSendCommand command; EvReadResponse])%list, inr (e_reply E))
      end
  end.

(** [s := <-ch] on the channel of [simpleCommand]: the first record, or
    the nil pointer when the channel is closed without a record. *)
Definition recv (rs : list ScanResult) : option ScanResult :=
  match rs with
  | [] => None
  | r :: _ => Some r
  end.

(** [func (c *Clamd) Ping() error] *)
Definition Ping (E : env) (c : Clamd) : list event * outcome unit :=
  let '(t, r) := simpleCommand E c "PING" in
  (t, match r with
      | inl err => Fail err
      | inr ch =>
          match recv ch with
          | None => Panic "invalid memory address or nil pointer dereference"
          | Some s =>
              if String.eqb (Raw s) "PONG" then Ret tt
              else Fail ("Invalid response, got " ++ fmt_v s ++ ".")
          end
      end).

(** The body of [for s := range ch] in [Stats]. *)
Fixpoint stats_loop (stats : Stats) (ch : list ScanResult) : outcome Stats :=
  match ch with
  | [] => Ret stats
  | s :: rest =>
      if HasPrefix (Raw s) "POOLS" then
        match slice_from 6 (Raw s) with
        | None => Panic "slice bounds out of range"
        | Some x =>
            stats_loop (mkStats (Trim_space x) (State stats) (Threads stats)
                                (Memstats stats) (Queue stats)) rest
        end
      else if HasPrefix (Raw s) "STATE" then
        stats_loop (mkStats (Pools stats) (Raw s) (Threads stats)
                            (Memstats stats) (Queue stats)) rest
      else if HasPrefix (Raw s) "THREADS" then
        stats_loop (mkStats (Pools stats) (State stats) (Raw s)
                            (Memstats stats) (Queue stats)) rest
      else if HasPrefix (Raw s) "QUEUE" then
        stats_loop (mkStats (Pools stats) (State stats) (Threads stats)
                            (Memstats stats) (Raw s)) rest
      else if HasPrefix (Raw s) "MEMSTATS" then
        stats_loop (mkStats (Pools stats) (State stats) (Threads stats)
                            (Raw s) (Queue stats)) rest
      else if HasPrefix (Raw s) "END" then
        stats_loop stats rest
      else Fail ("Unknown response, got " ++ fmt_v s ++ ".")
  end.

(** [func (c *Clamd) Stats() ( *Stats, error)] *)
Definition Stats_op (E : env) (c : Clamd) : list event * outcome Stats :=
  let '(t, r) := simpleCommand E c "STATS" in
  (t, match r with
      | inl err => Fail err
      | inr ch => stats_loop empty_Stats ch
      end).

(** [return <-ch, err] after [ch, err := c.simpleCommand(command)]: when
    [simpleCommand] fails, [ch] is the nil channel and the receive blocks
    forever. *)
Definition first_record (E : env) (c : Clamd) (command : string)
  : list event * outcome (option ScanResult) :=
  let '(t, r) := simpleCommand E c command in
  (t, match r with
      | inl _ => Block
      | inr ch => Ret (recv ch)
      end).

(** [func (c *Clamd) ScanFile(path string) ( *ScanResult, error)] *)
Definition ScanFile (E : env) (c : Clamd) (path : string) :=
  first_record E c ("SCAN " ++ path).

(** [func (c *Clamd) RawScanFile(path string) ( *ScanResult, error)] *)
Definition RawScanFile (E : env) (c : Clamd) (path : string) :=
  first_record E c ("RAWSCAN " ++ path).

(** [func (c *Clamd) MultiScanFile(path string) ( *ScanResult, error)] *)
Definition MultiScanFile (E : env) (c : Clamd) (path : string) :=
  first_record E c ("MULTISCAN " ++ path).

(** [func (c *Clamd) ContScanFile(path string) ( *ScanResult, error)] *)
Definition ContScanFile (E : env) (c : Clamd) (path : string) :=
  first_record E c ("CONTSCAN " ++ path).

(** [func (c *Clamd) AllMatchScanFile(path string) ( *ScanResult, error)] *)
Definition AllMatchScanFile (E : env) (c : Clamd) (path : string) :=
  first_record E c ("ALLMATCHSCAN " ++ path).

(** The five scan commands, by protocol word. *)
Inductive scan_variant := SCAN | RAWSCAN | MULTISCAN | CONTSCAN | ALLMATCHSCAN.

Definition variant_word (v : scan_variant) : string :=
  match v with
  | SCAN => "SCAN"
  | RAWSCAN => "RAWSCAN"
  | MULTISCAN => "MULTISCAN"
  | CONTSCAN => "CONTSCAN"
  | ALLMATCHSCAN => "ALLMATCHSCAN"
  end.

Definition scan_op (v : scan_variant) : env -> Clamd -> string -> list event * outcome (option ScanResult) :=
  match v with
  | SCAN => ScanFile
  | RAWSCAN => RawScanFile
  | MULTISCAN => MultiScanFile
  | CONTSCAN => ContScanFile
  | ALLMATCHSCAN => AllMatchScanFile
  end.

(** [func (c *Clamd) Version() ( *ScanResult, error)]:
    [dataArrays, err := c.simpleCommand("VERSION"); return <-dataArrays, err]. *)
Definition Version (E : env) (c : Clamd) : list event * outcome (option ScanResult) :=
  first_record E c "VERSION".

(** [func (c *Clamd) Reload() error] *)
Definition Reload (E : env) (c : Clamd) : list event * outcome unit :=
  let '(t, r) := simpleCommand E c "RELOAD" in
  (t, match r with
      | inl err => Fail err
      | inr ch =>
          match recv ch with
          | None => Panic "invalid memory address or nil pointer dereference"
          | Some s =>
              if String.eqb (Raw s) "RELOADING" then Ret tt
              else Fail ("Invalid response, got " ++ fmt_v s ++ ".")
          end
      end).

(** [func (c *Clamd) Shutdown() error]: the channel is dropped, only the
    error of [simpleCommand] is returned. *)
Definition Shutdown (E : env) (c : Clamd) : list event * outcome unit :=
  let '(t, r) := simpleCommand E c "SHUTDOWN" in
  (t, match r with
      | inl err => Fail err
      | inr _ => Ret tt
      end).

(** * ScanStream *)

(** One call [nr, err := r.Read(buf)] of the reader: the [nr] bytes it
    stores at the start of [buf], and its error. *)
Record read_step := mkRead { rd_data : list byte; rd_err : option error }.

(** The error of a write on a connection closed by [conn.Close()]. *)
Definition closed_msg : error := "use of closed network connection".

(** The abort watcher's [conn.Close()] lands, if at all, just before the
    write with index [j] of the main goroutine ([close_at = Some j]); a
    write after it fails. Write 0 is [INSTREAM], write [k] for [k > 0] a
    chunk or the terminator. *)
Definition conn_write (E : env) (close_at : option nat) (k : nat) : option error :=
  match close_at with
  | Some j => if Nat.leb j k then Some closed_msg else e_write E k
  | None => e_write E k
  end.

(** The abort watcher goroutine:
    [for { _, allowRunning := <-abort; if !allowRunning { break } }; conn.Close()].
    [AbortSend b] is a value sent on [abort], [AbortCloseCh] is
    [close(abort)]. The result says whether the watcher reaches
    [conn.Close()]; when the operations run out it is still blocked in the
    receive. *)
Inductive abort_op := AbortSend (b : bool) | AbortCloseCh.

Fixpoint watcher (ops : list abort_op) : bool :=
  match ops with
  | [] => false
  | AbortSend _ :: rest => watcher rest
  | AbortCloseCh :: _ => true
  end.

Section Upload.

(** [CHUNK_SIZE], a constant of conn.go. *)
Variable CHUNK_SIZE : nat.

(** [buf[0:nr]] with [buf := make([]byte, CHUNK_SIZE)] after a read of
    [data]. *)
Definition read_chunk (data : list byte) : list byte :=
  firstn (List.length data) (data ++ repeat x00 (CHUNK_SIZE - List.length data))%list.

(** The upload loop of [ScanStream], from write index [k]. It returns the
    events and [Some k'] (the next write index) when the loop breaks, or
    [None] when the reader's calls run out before it breaks (the reader is
    then taken to block). *)
Fixpoint upload_loop (E : env) (close_at : option nat) (k : nat)
    (script : list read_step) : list event * option nat :=
  match script with
  | [] => ([], None)
  | st :: rest =>
      let nr := List.length (rd_data st) in
      let '(t1, err, k1) :=
        if Nat.ltb 0 nr
        then ([EvSendChunk (read_chunk (rd_data st))], conn_write E close_at k, S k)
        else ([], rd_err st, k) in
      match err with
      | Some _ => (t1, Some k1)
      | None =>
          let '(t2, r) := upload_loop E close_at k1 rest in
          ((t1 ++ t2)%list, r)
      end
  end.

(** [func (c *Clamd) ScanStream(r io.Reader, abort chan bool) (chan *ScanResult, error)].
    The returned channel is given by its records; when the watcher closed
    the connection before the response is read, the decoder delivers no
    record. Closes that land while the response is read are the subject
    of [Closing] below. *)
Definition ScanStream (E : env) (c : Clamd) (close_at : option nat)
    (script : list read_step) : list event * outcome (list ScanResult) :=
  let '(t0, r) := newConnection E c in
  match r with
  | Some err => (t0, Fail err)
  | None =>
      let t1 := (t0 ++ [EvSendCommand "INSTREAM"])%list in
      match conn_write E close_at 0 with
      | Some err => (t1, Fail err)
      | None =>
          let '(tl, ex) := upload_loop E close_at 1 script in
          match ex with
          | None => ((t1 ++ tl)%list, Block)
          | Some k =>
              match conn_write E close_at k with
              | Some err => ((t1 ++ tl ++ [EvSendEOF])%list, Fail err)
              | None =>
                  ((t1 ++ tl ++ [EvSendEOF; EvReadResponse])%list,
                   Ret (match close_at with
                        | Some j => if Nat.leb j (S k) then [] else e_reply E
                        | None => e_reply E
                        end))
              end
          end
      end
  end.

End Upload.

(** * Closing the connection while the response is read *)

(** The goroutines that run once the response channel exists: the decoder
    of [readResponse], the caller receiving from its channel, the closer
    [go func() { wg.Wait(); conn.Close() }()] of [simpleCommand] and
    [ScanStream], and, in [ScanStream] only, the abort watcher together
    with the caller's [close(abort)]. A state of the interleaving and its
    labelled steps. *)
Module Closing.

Record cstate := mkCState {
  c_read : nat;        (* lines the decoder has read *)
  c_delivered : nat;   (* records received from the channel *)
  c_done : bool;       (* wg.Done() has run *)
  c_closed : bool;     (* conn.Close() has run *)
  c_abort : bool;      (* close(abort) has run *)
  c_watcher_fired : bool;
  c_closer_fired : bool
}.

Inductive closer_id := Closer | Watcher.

Inductive label :=
| LRead                 (* the decoder reads one line *)
| LDeliver (i : nat)    (* record number i is received from the channel *)
| LDone                 (* the decoder closes the channel and calls wg.Done() *)
| LAbortClose           (* the caller closes the abort channel *)
| LClose (w : closer_id).

Definition init : cstate := mkCState 0 0 false false false false false.

(** Modelled from the spec: the decoder of [readResponse] (conn.go is not
    part of the sources). It reads a reply of [n] records line by line,
    sends each record on the unbuffered channel, and satisfies the
    completion signal once it will emit no more: after the last record,
    or when a read fails because the connection is closed. [watcher] says
    whether the abort watcher of [ScanStream] is running. *)
Inductive cstep (watcher : bool) (n : nat) : cstate -> label -> cstate -> Prop :=
| st_read : forall r d dn ab wf cf,
    r = d -> r < n ->
    cstep watcher n (mkCState r d dn false ab wf cf) LRead
                    (mkCState (S r) d dn false ab wf cf)
| st_deliver : forall r d dn cl ab wf cf,
    r = S d ->
    cstep watcher n (mkCState r d dn cl ab wf cf) (LDeliver (S d))
                    (mkCState r (S d) dn cl ab wf cf)
| st_eof : forall r d cl ab wf cf,
    r = d -> d = n ->
    cstep watcher n (mkCState r d false cl ab wf cf) LDone
                    (mkCState r d true cl ab wf cf)
| st_readfail : forall r d ab wf cf,
    r = d -> d < n ->
    cstep watcher n (mkCState r d false true ab wf cf) LDone
                    (mkCState r d true true ab wf cf)
| st_closer : forall r d cl ab wf,
    cstep watcher n (mkCState r d true cl ab wf false) (LClose Closer)
                    (mkCState r d true true ab wf true)
| st_abort : forall r d dn cl wf cf,
    watcher = true ->
    cstep watcher n (mkCState r d dn cl false wf cf) LAbortClose
                    (mkCState r d dn cl true wf cf)
| st_watcher : forall r d dn cl cf,
    watcher = true ->
    cstep watcher n (mkCState r d dn cl true false cf) (LClose Watcher)
                    (mkCState r d dn true true true cf).

(** Finite executions. *)
Inductive csteps (watcher : bool) (n : nat) : cstate -> list label -> cstate -> Prop :=
| cs_nil : forall s, csteps watcher n s [] s
| cs_cons : forall s l s1 tr s2,
    cstep watcher n s l s1 -> csteps watcher n s1 tr s2 ->
    csteps watcher n s (l :: tr) s2.

(** The property of the spec: in every execution, a close of the
    connection comes after the delivery of the final record. *)
Definition close_after_final_delivery (watcher : bool) (n : nat) : Prop :=
  forall tr s, csteps watcher n init tr s ->
  forall pre w post, tr = (pre ++ LClose w :: post)%list -> In (LDeliver n) pre.

End Closing.

(** * Fixtures and derived views *)

(** [ScanStream] with the abort watcher fed [ops]; if it reaches
    [conn.Close()], the close lands before write [j] of the main goroutine. *)
Definition ScanStream_run (CHUNK_SIZE : nat) (E : env) (c : Clamd)
    (ops : list abort_op) (j : nat) (script : list read_step) :=
  ScanStream CHUNK_SIZE E c (if watcher ops then Some j else None) script.

(** Number of [url.Parse] calls in a trace. *)
Fixpoint count_parse (t : list event) : nat :=
  match t with
  | [] => 0
  | EvParse _ :: rest => S (count_parse rest)
  | _ :: rest => count_parse rest
  end.

(** Number of [conn.Close()] calls in an interleaving. *)
Fixpoint count_close (tr : list Closing.label) : nat :=
  match tr with
  | [] => 0
  | Closing.LClose _ :: rest => S (count_close rest)
  | _ :: rest => count_close rest
  end.

(** A record as the decoder builds it for an unstructured line. *)
Definition record_of_raw (s : string) : ScanResult := mkScanResult s "" "" "" 0%Z "".

(** A daemon reached over TCP whose reply is [rs]; every write succeeds. *)
Definition tcp_env (rs : list ScanResult) : env :=
  mkEnv (fun _ => inr (mkURL "tcp" "127.0.0.1:3310" "")) (fun _ => None)
        (fun _ => None) rs.

Definition tcp_client : Clamd := NewClamd "tcp://127.0.0.1:3310".

(** A write of a non-empty chunk. *)
Definition is_chunk (e : event) : Prop := exists d, e = EvSendChunk d /\ d <> [].

(** Without the watcher the connection is closed only after the
    completion signal, and the signal comes only after all [n] records. *)
Definition inv_no_watcher (n : nat) (s : Closing.cstate) : Prop :=
  (Closing.c_closed s = true -> Closing.c_done s = true) /\
  (Closing.c_done s = true -> Closing.c_delivered s = n) /\
  Closing.c_delivered s <= Closing.c_read s <= n /\
  Closing.c_read s <= S (Closing.c_delivered s).

(** * Lemmas *)

Lemma stats_loop_app : forall pre rest st,
  stats_loop st (pre ++ rest)%list =
  match stats_loop st pre with
  | Ret st' => stats_loop st' rest
  | o => o
  end.
Proof.
  induction pre as [|s pre IH]; intros rest st; simpl; [reflexivity|].
  destruct (HasPrefix (Raw s) "POOLS");
    [destruct (slice_from 6 (Raw s)); [apply IH|reflexivity]|].
  destruct (HasPrefix (Raw s) "STATE"); [apply IH|].
  destruct (HasPrefix (Raw s) "THREADS"); [apply IH|].
  destruct (HasPrefix (Raw s) "QUEUE"); [apply IH|].
  destruct (HasPrefix (Raw s) "MEMSTATS"); [apply IH|].
  destruct (HasPrefix (Raw s) "END"); [apply IH|reflexivity].
Qed.

Lemma newConnection_events : forall E c,
  fst (newConnection E c) = [EvParse (address c)] \/
  exists ep, fst (newConnection E c) = [EvParse (address c); EvDial ep].
Proof.
  intros E c; unfold newConnection.
  destruct (e_parse E (address c)); simpl; [left; reflexivity|right; eauto].
Qed.

Lemma count_parse_app : forall t1 t2,
  count_parse (t1 ++ t2)%list = count_parse t1 + count_parse t2.
Proof.
  induction t1 as [|ev t1 IH]; intros t2; simpl; [reflexivity|].
  destruct ev; simpl; rewrite ?IH; reflexivity.
Qed.

(** * Claims *)

(** C1: [newConnection] parses the address; a parse error is returned
    before any dial; scheme [tcp] dials [u.Host] over TCP, scheme [unix]
    dials [u.Path] over a local socket, any other scheme (also the empty
    scheme of a bare path) dials the whole address string as a local
    socket path. *)
Theorem newConnection_scheme : forall E c,
  (forall err, e_parse E (address c) = inl err ->
     newConnection E c = ([EvParse (address c)], Some err)) /\
  (forall u, e_parse E (address c) = inr u -> Scheme u = "tcp" ->
     newConnection E c = ([EvParse (address c); EvDial (TcpEndpoint (Host u))],
                          e_dial E (TcpEndpoint (Host u)))) /\
  (forall u, e_parse E (address c) = inr u -> Scheme u = "unix" ->
     newConnection E c = ([EvParse (address c); EvDial (UnixEndpoint (UPath u))],
                          e_dial E (UnixEndpoint (UPath u)))) /\
  (forall u, e_parse E (address c) = inr u -> Scheme u <> "tcp" -> Scheme u <> "unix" ->
     newConnection E c = ([EvParse (address c); EvDial (UnixEndpoint (address c))],
                          e_dial E (UnixEndpoint (address c)))).
Proof.
  intros E c; unfold newConnection; repeat split.
  - intros err H; rewrite H; reflexivity.
  - intros u H Hs; rewrite H, Hs; reflexivity.
  - intros u H Hs; rewrite H, Hs; reflexivity.
  - intros u H Ht Hu; rewrite H.
    apply String.eqb_neq in Ht; apply String.eqb_neq in Hu.
    rewrite Ht, Hu; reflexivity.
Qed.

Lemma newConnection_scheme_witness :
  newConnection (tcp_env []) tcp_client =
    ([EvParse "tcp://127.0.0.1:3310"; EvDial (TcpEndpoint "127.0.0.1:3310")], None) /\
  newConnection (mkEnv (fun _ => inr (mkURL "unix" "" "/run/clamd.ctl")) (fun _ => None)
                       (fun _ => None) []) (NewClamd "unix:///run/clamd.ctl") =
    ([EvParse "unix:///run/clamd.ctl"; EvDial (UnixEndpoint "/run/clamd.ctl")], None) /\
  newConnection (mkEnv (fun _ => inr (mkURL "" "" "/run/clamd.ctl")) (fun _ => None)
                       (fun _ => None) []) (NewClamd "/run/clamd.ctl") =
    ([EvParse "/run/clamd.ctl"; EvDial (UnixEndpoint "/run/clamd.ctl")], None) /\
  newConnection (mkEnv (fun _ => inl "invalid URL") (fun _ => None)
                       (fun _ => None) []) (NewClamd ":bad") =
    ([EvParse ":bad"], Some "invalid URL").
Proof.
  split; [|split; [|split]].
  - apply (proj1 (proj2 (newConnection_scheme (tcp_env []) tcp_client))
             (mkURL "tcp" "127.0.0.1:3310" "")); reflexivity.
  - apply (proj1 (proj2 (proj2 (newConnection_scheme
             (mkEnv (fun _ => inr (mkURL "unix" "" "/run/clamd.ctl")) (fun _ => None)
                    (fun _ => None) []) (NewClamd "unix:///run/clamd.ctl"))))
             (mkURL "unix" "" "/run/clamd.ctl")); reflexivity.
  - apply (proj2 (proj2 (proj2 (newConnection_scheme
             (mkEnv (fun _ => inr (mkURL "" "" "/run/clamd.ctl")) (fun _ => None)
                    (fun _ => None) []) (NewClamd "/run/clamd.ctl"))))
             (mkURL "" "" "/run/clamd.ctl")); [reflexivity|discriminate|discriminate].
  - apply (proj1 (newConnection_scheme
             (mkEnv (fun _ => inl "invalid URL") (fun _ => None) (fun _ => None) [])
             (NewClamd ":bad"))); reflexivity.
Defined.

(** C2: on the reply POOLS/STATE/THREADS/QUEUE/MEMSTATS/END of the spec,
    [Stats] succeeds with [Pools = "1"] and the other fields holding the
    raw records. *)
Theorem Stats_reply_example : forall E c t rs,
  simpleCommand E c "STATS" = (t, inr rs) ->
  map Raw rs = ["POOLS: 1"; "STATE: VALID"; "THREADS: live 1 idle 0 max 10";
                "QUEUE: 0"; "MEMSTATS: heap 1M"; "END"] ->
  Stats_op E c = (t, Ret (mkStats "1" "STATE: VALID" "THREADS: live 1 idle 0 max 10"
                                  "MEMSTATS: heap 1M" "QUEUE: 0")).
Proof.
  intros E c t rs Hc Hm; unfold Stats_op; rewrite Hc.
  destruct rs as [|r1 [|r2 [|r3 [|r4 [|r5 [|r6 [|r7 rs]]]]]]]; try discriminate Hm.
  destruct r1, r2, r3, r4, r5, r6; simpl in Hm; injection Hm as -> -> -> -> -> ->.
  reflexivity.
Qed.

Lemma Stats_reply_example_witness :
  Stats_op (tcp_env (map record_of_raw
              ["POOLS: 1"; "STATE: VALID"; "THREADS: live 1 idle 0 max 10";
               "QUEUE: 0"; "MEMSTATS: heap 1M"; "END"])) tcp_client =
  (fst (simpleCommand (tcp_env (map record_of_raw
              ["POOLS: 1"; "STATE: VALID"; "THREADS: live 1 idle 0 max 10";
               "QUEUE: 0"; "MEMSTATS: heap 1M"; "END"])) tcp_client "STATS"),
   Ret (mkStats "1" "STATE: VALID" "THREADS: live 1 idle 0 max 10"
                "MEMSTATS: heap 1M" "QUEUE: 0")).
Proof.
  apply Stats_reply_example with
    (rs := map record_of_raw
              ["POOLS: 1"; "STATE: VALID"; "THREADS: live 1 idle 0 max 10";
               "QUEUE: 0"; "MEMSTATS: heap 1M"; "END"]); reflexivity.
Defined.

(** C3 (failing input): an unrecognised record alone makes [Stats] fail
    with a message that prints the record, but after a record that is
    exactly [POOLS] the same unrecognised record is never reached: the
    slice [s.Raw[6:]] panics first. *)
Theorem Stats_unknown_after_short_pools :
  snd (Stats_op (tcp_env [record_of_raw "BOGUS: x"]) tcp_client) =
    Fail "Unknown response, got &{BOGUS: x    0 }." /\
  snd (Stats_op (tcp_env (map record_of_raw ["POOLS"; "BOGUS: x"])) tcp_client) =
    Panic "slice bounds out of range".
Proof. split; reflexivity. Qed.

(** C4 (failing input): [Ping] succeeds on the reply [PONG], fails with
    an error on another single record, and panics (nil pointer
    dereference of the received [*ScanResult]) when the channel closes
    without a record. *)
Theorem Ping_empty_reply_panics :
  snd (Ping (tcp_env [record_of_raw "PONG"]) tcp_client) = Ret tt /\
  snd (Ping (tcp_env [record_of_raw "PANG"]) tcp_client) =
    Fail "Invalid response, got &{PANG    0 }." /\
  snd (Ping (tcp_env []) tcp_client) =
    Panic "invalid memory address or nil pointer dereference".
Proof. repeat split. Qed.

(** C5: every scan variant sends only the command [VARIANT path]; when
    the connection is set up and the command written, it returns the
    first record of the reply (nil when the reply is empty). *)
Theorem scan_op_command : forall v E c path,
  (forall cmd, In (EvSendCommand cmd) (fst (scan_op v E c path)) ->
     cmd = variant_word v ++ " " ++ path) /\
  (snd (newConnection E c) = None -> e_write E 0 = None ->
     In (EvSendCommand (variant_word v ++ " " ++ path)) (fst (scan_op v E c path)) /\
     snd (scan_op v E c path) = Ret (recv (e_reply E))).
Proof.
  intros v E c path.
  assert (Hsc : scan_op v E c path = first_record E c (variant_word v ++ " " ++ path))
    by (destruct v; reflexivity).
  rewrite Hsc; unfold first_record, simpleCommand.
  destruct (newConnection E c) as [t0 r] eqn:Hn; simpl.
  assert (Ht0 : forall cmd, ~ In (EvSendCommand cmd) t0).
  { intros cmd Hin. destruct (newConnection_events E c) as [H|[ep H]];
    rewrite Hn in H; simpl in H; subst t0; simpl in Hin; intuition discriminate. }
  split.
  - intros cmd Hin. destruct r as [err|]; simpl in Hin; [exfalso; exact (Ht0 _ Hin)|].
    destruct (e_write E 0); simpl in Hin; apply in_app_or in Hin;
      destruct Hin as [Hin|Hin]; try (exfalso; exact (Ht0 _ Hin));
      simpl in Hin; intuition congruence.
  - intros Hr Hw; subst r; rewrite Hw; simpl; split; [|reflexivity].
    apply in_or_app; right; left; reflexivity.
Qed.

Lemma scan_op_command_witness :
  In (EvSendCommand "CONTSCAN /tmp/eicar.txt")
     (fst (scan_op CONTSCAN (tcp_env [record_of_raw "/tmp/eicar.txt: OK"]) tcp_client
                   "/tmp/eicar.txt")) /\
  snd (scan_op CONTSCAN (tcp_env [record_of_raw "/tmp/eicar.txt: OK"]) tcp_client
               "/tmp/eicar.txt") = Ret (Some (record_of_raw "/tmp/eicar.txt: OK")).
Proof.
  apply (proj2 (scan_op_command CONTSCAN (tcp_env [record_of_raw "/tmp/eicar.txt: OK"])
                  tcp_client "/tmp/eicar.txt")); reflexivity.
Defined.

(** C9 (counterexample): [NewClamd] does not parse the address; each
    operation parses it again, so two operations on one client parse it
    twice. *)
Theorem address_parsed_per_operation :
  NewClamd "tcp://127.0.0.1:3310" = mkClamd "tcp://127.0.0.1:3310" /\
  count_parse (fst (Ping (tcp_env [record_of_raw "PONG"]) tcp_client) ++
               fst (Ping (tcp_env [record_of_raw "PONG"]) tcp_client))%list = 2.
Proof. split; reflexivity. Qed.

(** C10: when [Stats] reaches a record whose raw text is exactly [POOLS]
    (all records before it being accepted), it panics on the slice
    [s.Raw[6:]]. *)
Theorem Stats_short_pools_panics : forall E c t pre s post,
  simpleCommand E c "STATS" = (t, inr (pre ++ s :: post)%list) ->
  Raw s = "POOLS" ->
  (exists st, stats_loop empty_Stats pre = Ret st) ->
  Stats_op E c = (t, Panic "slice bounds out of range").
Proof.
  intros E c t pre s post Hc Hr [st Hpre].
  unfold Stats_op; rewrite Hc, stats_loop_app, Hpre; simpl.
  rewrite Hr; reflexivity.
Qed.

Lemma Stats_short_pools_panics_witness :
  Stats_op (tcp_env (map record_of_raw ["STATE: VALID"; "POOLS"; "END"])) tcp_client =
  (fst (simpleCommand (tcp_env (map record_of_raw ["STATE: VALID"; "POOLS"; "END"]))
                      tcp_client "STATS"),
   Panic "slice bounds out of range").
Proof.
  apply (Stats_short_pools_panics _ _ _ [record_of_raw "STATE: VALID"]
           (record_of_raw "POOLS") [record_of_raw "END"]).
  - reflexivity.
  - reflexivity.
  - eexists; reflexivity.
Defined.

(** * Upload loop *)

Lemma read_chunk_length : forall CS d, List.length (read_chunk CS d) = List.length d.
Proof.
  intros CS d; unfold read_chunk.
  rewrite length_firstn, length_app; lia.
Qed.

Lemma upload_loop_events : forall CS E ca script k t r,
  upload_loop CS E ca k script = (t, r) -> Forall is_chunk t.
Proof.
  intros CS E ca script; induction script as [|st rest IH]; intros k t r H; simpl in H.
  - inversion H; constructor.
  - destruct (Nat.ltb 0 (List.length (rd_data st))) eqn:Hlt.
    + assert (Hc : is_chunk (EvSendChunk (read_chunk CS (rd_data st)))).
      { eexists; split; [reflexivity|]. intro Hnil.
        apply (f_equal (@List.length byte)) in Hnil.
        rewrite read_chunk_length in Hnil. apply Nat.ltb_lt in Hlt. simpl in Hnil. lia. }
      destruct (conn_write E ca k).
      * inversion H; subst; constructor; [exact Hc|constructor].
      * destruct (upload_loop CS E ca (S k) rest) as [t2 r2] eqn:Hu.
        inversion H; subst; constructor; [exact Hc|eapply IH; eauto].
    + destruct (rd_err st); [inversion H; constructor|].
      destruct (upload_loop CS E ca k rest) as [t2 r2] eqn:Hu.
      inversion H; subst; eapply IH; eauto.
Qed.

Lemma ScanStream_parse_head : forall CS E c ca script,
  exists rest, fst (ScanStream CS E c ca script) = EvParse (address c) :: rest /\
               count_parse rest = 0.
Proof.
  intros CS E c ca script.
  assert (H0 : exists r0, fst (newConnection E c) = EvParse (address c) :: r0 /\
                          count_parse r0 = 0).
  { destruct (newConnection_events E c) as [H|[ep H]]; rewrite H; eauto. }
  destruct H0 as [r0 [Hr0 Hc0]].
  unfold ScanStream.
  destruct (newConnection E c) as [t0 r]; simpl in Hr0; subst t0.
  assert (Hl : forall k tl x, upload_loop CS E ca k script = (tl, x) -> count_parse tl = 0).
  { intros k tl x Hu. pose proof (upload_loop_events _ _ _ _ _ _ _ Hu) as HF.
    clear Hu; induction HF as [|e tl [d [-> _]] _ IH]; simpl; auto. }
  destruct r; [simpl; eauto|].
  destruct (conn_write E ca 0); [simpl; eexists; split; [reflexivity|];
    rewrite count_parse_app, Hc0; reflexivity|].
  destruct (upload_loop CS E ca 1 script) as [tl [k|]] eqn:Hu;
    [destruct (conn_write E ca k)|]; simpl; eexists; (split; [reflexivity|]);
    rewrite ?count_parse_app, Hc0; simpl; rewrite ?count_parse_app, (Hl _ _ _ Hu); reflexivity.
Qed.

(** C9 (as amended): [NewClamd] keeps the address string as given, and
    every operation that opens a connection starts by parsing it, once:
    [newConnection], every command sent through [simpleCommand], and
    [ScanStream]. *)
Theorem address_parsed_at_each_operation : forall a,
  address (NewClamd a) = a /\
  (forall E c, exists rest, fst (newConnection E c) = EvParse (address c) :: rest /\
                            count_parse rest = 0) /\
  (forall E c cmd, exists rest, fst (simpleCommand E c cmd) = EvParse (address c) :: rest /\
                                count_parse rest = 0) /\
  (forall CS E c ca script,
     exists rest, fst (ScanStream CS E c ca script) = EvParse (address c) :: rest /\
                  count_parse rest = 0).
Proof.
  intros a; split; [reflexivity|].
  assert (Hn : forall E c, exists rest,
             fst (newConnection E c) = EvParse (address c) :: rest /\ count_parse rest = 0).
  { intros E c; destruct (newConnection_events E c) as [H|[ep H]]; rewrite H; eauto. }
  split; [exact Hn|].
  split; [|exact ScanStream_parse_head].
  intros E c cmd; destruct (Hn E c) as [rest [Hr Hc]].
  unfold simpleCommand; destruct (newConnection E c) as [t0 r]; simpl in Hr; subst t0.
  destruct r; [simpl; eauto|].
  destruct (e_write E 0); simpl; eexists; split; try reflexivity;
    rewrite count_parse_app, Hc; reflexivity.
Qed.

Lemma upload_closed_chunk : forall CS E j k st rest,
  j <= k -> 0 < List.length (rd_data st) ->
  upload_loop CS E (Some j) k (st :: rest) =
    ([EvSendChunk (read_chunk CS (rd_data st))], Some (S k)).
Proof.
  intros CS E j k st rest Hj Hn; simpl.
  apply Nat.ltb_lt in Hn; rewrite Hn; unfold conn_write.
  apply Nat.leb_le in Hj; rewrite Hj; reflexivity.
Qed.

Lemma upload_closed_exits : forall CS E j script k,
  j <= k ->
  (exists st, In st script /\ (0 < List.length (rd_data st) \/ rd_err st <> None)) ->
  exists tl k', upload_loop CS E (Some j) k script = (tl, Some k') /\ List.length tl <= 1.
Proof.
  intros CS E j script; induction script as [|st rest IH]; intros k Hj [s [Hin Hs]].
  - destruct Hin.
  - destruct (Nat.ltb 0 (List.length (rd_data st))) eqn:Hlt.
    + apply Nat.ltb_lt in Hlt. rewrite upload_closed_chunk by assumption. eauto.
    + simpl; rewrite Hlt. destruct (rd_err st) eqn:He; [eexists; eexists; split; [reflexivity|simpl; lia]|].
      destruct Hin as [<-|Hin].
      * apply Nat.ltb_ge in Hlt. destruct Hs as [Hs|Hs]; [lia|congruence].
      * destruct (IH k Hj (ex_intro _ s (conj Hin Hs))) as [tl [k' [Hu Hl]]].
        rewrite Hu; eauto.
Qed.

Lemma ScanStream_closed_fails : forall CS E c j script tl k,
  upload_loop CS E (Some j) 1 script = (tl, Some k) -> j <= k ->
  exists err, snd (ScanStream CS E c (Some j) script) = Fail err.
Proof.
  intros CS E c j script tl k Hu Hj; unfold ScanStream.
  destruct (newConnection E c) as [t0 [err|]]; [eexists; reflexivity|].
  destruct (conn_write E (Some j) 0); [eexists; reflexivity|].
  rewrite Hu; unfold conn_write at 1.
  apply Nat.leb_le in Hj; rewrite Hj; eexists; reflexivity.
Qed.

Lemma watcher_closes : forall ops, watcher ops = true <-> In AbortCloseCh ops.
Proof.
  induction ops as [|[b|] rest IH]; simpl.
  - split; [discriminate|tauto].
  - rewrite IH; split; [auto|intros [H|H]; [discriminate|exact H]].
  - tauto.
Qed.

(** C6: the upload loop of [ScanStream] sends only chunks of positive
    length; when the loop breaks (after [INSTREAM] was written), the trace
    is: connection set-up, [INSTREAM], the chunks of the loop, one
    [sendEOF], and at most the read of the response. *)
Theorem ScanStream_chunks_nonempty : forall CS E c ca script,
  (forall d, In (EvSendChunk d) (fst (ScanStream CS E c ca script)) -> d <> []) /\
  (forall tl k, snd (newConnection E c) = None -> conn_write E ca 0 = None ->
     upload_loop CS E ca 1 script = (tl, Some k) ->
     Forall is_chunk tl /\
     exists post, fst (ScanStream CS E c ca script) =
       (fst (newConnection E c) ++ EvSendCommand "INSTREAM" :: tl ++ EvSendEOF :: post)%list /\
       (post = [] \/ post = [EvReadResponse])).
Proof.
  intros CS E c ca script; split.
  - intros d Hin.
    assert (Hnc : forall t, t = fst (newConnection E c) -> In (EvSendChunk d) t -> d <> []).
    { intros t -> Ht. exfalso.
      destruct (newConnection_events E c) as [H|[ep H]]; rewrite H in Ht; simpl in Ht;
        intuition discriminate. }
    assert (Hl : forall t r k, upload_loop CS E ca k script = (t, r) ->
                 In (EvSendChunk d) t -> d <> []).
    { intros t r k Hu Ht. pose proof (upload_loop_events _ _ _ _ _ _ _ Hu) as HF.
      rewrite Forall_forall in HF. destruct (HF _ Ht) as [d' [Hd' Hne]].
      injection Hd' as ->; exact Hne. }
    unfold ScanStream in Hin.
    destruct (newConnection E c) as [t0 r] eqn:Hn.
    assert (Ht0 : In (EvSendChunk d) t0 -> d <> []) by (intros H; apply (Hnc t0); [reflexivity|exact H]).
    destruct r as [err|]; simpl in Hin; [auto|].
    destruct (conn_write E ca 0); simpl in Hin.
    + apply in_app_or in Hin; destruct Hin as [Hin|[Hin|[]]]; [auto|discriminate].
    + destruct (upload_loop CS E ca 1 script) as [tl [k|]] eqn:Hu;
        [destruct (conn_write E ca k)|]; simpl in Hin;
        repeat (apply in_app_or in Hin; destruct Hin as [Hin|Hin]);
        try solve [auto | eapply Hl; eauto];
        simpl in Hin; intuition discriminate.
  - intros tl k Hn Hw Hu; split; [eapply upload_loop_events; eauto|].
    unfold ScanStream.
    destruct (newConnection E c) as [t0 r]; simpl in Hn |- *; subst r.
    rewrite Hw, Hu.
    destruct (conn_write E ca k); simpl; eexists; rewrite <- !app_assoc; simpl;
      split; try reflexivity; auto.
Qed.

Lemma ScanStream_chunks_nonempty_witness :
  Forall is_chunk [EvSendChunk [x41; x42]] /\
  exists post,
    fst (ScanStream 4 (tcp_env [record_of_raw "stream: OK"]) tcp_client None
                    [mkRead [x41; x42] None; mkRead [] (Some "EOF")]) =
    (fst (newConnection (tcp_env [record_of_raw "stream: OK"]) tcp_client) ++
     EvSendCommand "INSTREAM" :: [EvSendChunk [x41; x42]] ++ EvSendEOF :: post)%list /\
    (post = [] \/ post = [EvReadResponse]).
Proof.
  apply (proj2 (ScanStream_chunks_nonempty 4 (tcp_env [record_of_raw "stream: OK"])
                  tcp_client None [mkRead [x41; x42] None; mkRead [] (Some "EOF")])
               [EvSendChunk [x41; x42]] 2); reflexivity.
Defined.

(** C8 (counterexample): a value sent on [abort] does not stop the
    upload: the watcher keeps receiving, the connection stays open, all
    chunks and the terminator are written and the verdict is returned. *)
Theorem abort_send_does_not_cancel :
  watcher [AbortSend true] = false /\
  ScanStream_run 4 (tcp_env [record_of_raw "stream: OK"]) tcp_client [AbortSend true] 1
                 [mkRead [x41; x42] None; mkRead [] (Some "EOF")] =
  ([EvParse "tcp://127.0.0.1:3310"; EvDial (TcpEndpoint "127.0.0.1:3310");
    EvSendCommand "INSTREAM"; EvSendChunk [x41; x42]; EvSendEOF; EvReadResponse],
   Ret [record_of_raw "stream: OK"]).
Proof. split; reflexivity. Qed.

(** C8 (as amended): the watcher reaches [conn.Close()] exactly when the
    abort channel is closed; once the connection is closed, the next read
    that returns data ends the loop through the failing chunk write, the
    loop breaks at the first read returning data or an error, and when
    the close lands before the terminator [ScanStream] returns an error
    (no panic, no verdict). *)
Theorem abort_close_ends_upload :
  (forall ops, watcher ops = true <-> In AbortCloseCh ops) /\
  (forall CS E j k st rest, j <= k -> 0 < List.length (rd_data st) ->
     upload_loop CS E (Some j) k (st :: rest) =
       ([EvSendChunk (read_chunk CS (rd_data st))], Some (S k))) /\
  (forall CS E j script k, j <= k ->
     (exists st, In st script /\ (0 < List.length (rd_data st) \/ rd_err st <> None)) ->
     exists tl k', upload_loop CS E (Some j) k script = (tl, Some k') /\
                   List.length tl <= 1) /\
  (forall CS E c j script tl k,
     upload_loop CS E (Some j) 1 script = (tl, Some k) -> j <= k ->
     exists err, snd (ScanStream CS E c (Some j) script) = Fail err).
Proof.
  split; [exact watcher_closes|].
  split; [exact upload_closed_chunk|].
  split; [exact upload_closed_exits|exact ScanStream_closed_fails].
Qed.

Lemma abort_close_ends_upload_witness :
  upload_loop 4 (tcp_env []) (Some 1) 1 [mkRead [x41] None; mkRead [x42] None] =
    ([EvSendChunk (read_chunk 4 [x41])], Some 2) /\
  (exists err, snd (ScanStream 4 (tcp_env []) tcp_client (Some 1)
                               [mkRead [x41] None; mkRead [x42] None]) = Fail err).
Proof.
  split.
  - apply (proj1 (proj2 abort_close_ends_upload)); simpl; lia.
  - apply (proj2 (proj2 (proj2 abort_close_ends_upload)) 4 (tcp_env []) tcp_client 1
             [mkRead [x41] None; mkRead [x42] None] [EvSendChunk (read_chunk 4 [x41])] 2);
      [reflexivity|lia].
Defined.

(** * Closing the connection: interleavings *)

Lemma csteps_app : forall w n pre tr s s',
  Closing.csteps w n s (pre ++ tr)%list s' ->
  exists m, Closing.csteps w n s pre m /\ Closing.csteps w n m tr s'.
Proof.
  induction pre as [|l pre IH]; intros tr s s' H; simpl in H.
  - exists s; split; [constructor|exact H].
  - inversion H; subst.
    destruct (IH _ _ _ H5) as [m [H1 H2]].
    exists m; split; [econstructor; eauto|exact H2].
Qed.

Lemma deliver_in_trace : forall w n s tr s',
  Closing.csteps w n s tr s' ->
  forall k, Closing.c_delivered s < k <= Closing.c_delivered s' -> In (Closing.LDeliver k) tr.
Proof.
  induction 1 as [s|s l s1 tr s2 Hst Hs IH]; intros k Hk; [lia|].
  inversion Hst; subst; simpl in *;
    try (right; apply IH; simpl; lia).
  destruct (Nat.eq_dec k (S d)) as [->|Hne]; [left; reflexivity|].
  right; apply IH; simpl; lia.
Qed.

Lemma done_in_trace : forall w n s tr s',
  Closing.csteps w n s tr s' ->
  Closing.c_done s = false -> Closing.c_done s' = true -> In Closing.LDone tr.
Proof.
  induction 1 as [s|s l s1 tr s2 Hst Hs IH]; intros H0 H1; [congruence|].
  inversion Hst; subst; simpl in *; try discriminate;
    try (left; reflexivity); right; apply IH; auto.
Qed.

Lemma abort_in_trace : forall w n s tr s',
  Closing.csteps w n s tr s' ->
  Closing.c_abort s = false -> Closing.c_abort s' = true -> In Closing.LAbortClose tr.
Proof.
  induction 1 as [s|s l s1 tr s2 Hst Hs IH]; intros H0 H1; [congruence|].
  inversion Hst; subst; simpl in *; try discriminate;
    try (left; reflexivity); right; apply IH; auto.
Qed.

Lemma inv_no_watcher_step : forall n s l s',
  Closing.cstep false n s l s' -> inv_no_watcher n s -> inv_no_watcher n s'.
Proof.
  intros n s l s' Hst [Hc [Hd [Hb Hr]]]; unfold inv_no_watcher.
  inversion Hst; subst; simpl in *; try discriminate.
  - repeat split; intros; try discriminate; auto; lia.
  - repeat split; intros; try lia.
    + auto.
    + assert (d = n) by auto. lia.
  - repeat split; intros; auto; lia.
  - specialize (Hc eq_refl); discriminate.
  - repeat split; intros; auto; lia.
Qed.

Lemma inv_no_watcher_steps : forall n s tr s',
  Closing.csteps false n s tr s' -> inv_no_watcher n s -> inv_no_watcher n s'.
Proof.
  induction 1; intros; [assumption|].
  apply IHcsteps; eapply inv_no_watcher_step; eauto.
Qed.

(** C7 (counterexample): in [ScanStream] the abort watcher may close the
    connection after the decoder read the last line and before that
    record is delivered (the caller closed [abort] meanwhile); the closer
    task alone is not the only one closing the connection. *)
Theorem watcher_close_before_final_delivery :
  Closing.csteps true 1 Closing.init
    [Closing.LRead; Closing.LAbortClose; Closing.LClose Closing.Watcher;
     Closing.LDeliver 1; Closing.LDone; Closing.LClose Closing.Closer]
    (Closing.mkCState 1 1 true true true true true) /\
  ~ Closing.close_after_final_delivery true 1.
Proof.
  assert (Hrun : Closing.csteps true 1 Closing.init
    [Closing.LRead; Closing.LAbortClose; Closing.LClose Closing.Watcher;
     Closing.LDeliver 1; Closing.LDone; Closing.LClose Closing.Closer]
    (Closing.mkCState 1 1 true true true true true)).
  { unfold Closing.init.
    eapply Closing.cs_cons; [apply Closing.st_read; lia|].
    eapply Closing.cs_cons; [apply Closing.st_abort; reflexivity|].
    eapply Closing.cs_cons; [apply Closing.st_watcher; reflexivity|].
    eapply Closing.cs_cons; [apply Closing.st_deliver; reflexivity|].
    eapply Closing.cs_cons; [apply Closing.st_eof; reflexivity|].
    eapply Closing.cs_cons; [apply Closing.st_closer|].
    apply Closing.cs_nil. }
  split; [exact Hrun|].
  intros H.
  specialize (H _ _ Hrun [Closing.LRead; Closing.LAbortClose] Closing.Watcher
                [Closing.LDeliver 1; Closing.LDone; Closing.LClose Closing.Closer] eq_refl).
  simpl in H; intuition discriminate.
Qed.

(** C7 (as amended): for the commands of [simpleCommand] (no watcher) the
    connection is closed only after the final record is delivered; in
    [ScanStream] the closer task closes only after the completion signal,
    and the watcher closes only after the abort channel was closed. *)
Theorem close_ordering :
  (forall n, 0 < n -> Closing.close_after_final_delivery false n) /\
  (forall n tr s, Closing.csteps true n Closing.init tr s ->
     forall pre post, tr = (pre ++ Closing.LClose Closing.Closer :: post)%list ->
     In Closing.LDone pre) /\
  (forall n tr s, Closing.csteps true n Closing.init tr s ->
     forall pre post, tr = (pre ++ Closing.LClose Closing.Watcher :: post)%list ->
     In Closing.LAbortClose pre).
Proof.
  split; [|split].
  - intros n Hn tr s Hs pre w post ->.
    destruct (csteps_app _ _ _ _ _ _ Hs) as [m [Hpre Hpost]].
    inversion Hpost as [|s0 l s1 tr0 s2 Hst Hrest]; subst.
    assert (Hi : inv_no_watcher n m).
    { eapply inv_no_watcher_steps; [exact Hpre|].
      unfold inv_no_watcher, Closing.init; simpl; repeat split; try discriminate; lia. }
    destruct Hi as [_ [Hd _]].
    apply (deliver_in_trace _ _ _ _ _ Hpre); simpl.
    inversion Hst; subst; try discriminate; simpl in Hd |- *; rewrite Hd by reflexivity; lia.
  - intros n tr s Hs pre post ->.
    destruct (csteps_app _ _ _ _ _ _ Hs) as [m [Hpre Hpost]].
    inversion Hpost as [|s0 l s1 tr0 s2 Hst Hrest]; subst. inversion Hst; subst.
    apply (done_in_trace _ _ _ _ _ Hpre); reflexivity.
  - intros n tr s Hs pre post ->.
    destruct (csteps_app _ _ _ _ _ _ Hs) as [m [Hpre Hpost]].
    inversion Hpost as [|s0 l s1 tr0 s2 Hst Hrest]; subst. inversion Hst; subst.
    apply (abort_in_trace _ _ _ _ _ Hpre); reflexivity.
Qed.

Lemma close_ordering_witness :
  Closing.close_after_final_delivery false 2 /\
  In Closing.LDone [Closing.LRead; Closing.LDeliver 1; Closing.LDone] /\
  In Closing.LAbortClose [Closing.LAbortClose].
Proof.
  split; [|split].
  - apply (proj1 close_ordering); lia.
  - refine (proj1 (proj2 close_ordering) 1
             [Closing.LRead; Closing.LDeliver 1; Closing.LDone; Closing.LClose Closing.Closer]
             (Closing.mkCState 1 1 true true false false true) _
             [Closing.LRead; Closing.LDeliver 1; Closing.LDone] [] eq_refl).
    unfold Closing.init.
    eapply Closing.cs_cons; [apply Closing.st_read; lia|].
    eapply Closing.cs_cons; [apply Closing.st_deliver; reflexivity|].
    eapply Closing.cs_cons; [apply Closing.st_eof; reflexivity|].
    eapply Closing.cs_cons; [apply Closing.st_closer|].
    apply Closing.cs_nil.
  - refine (proj2 (proj2 close_ordering) 0
             [Closing.LAbortClose; Closing.LClose Closing.Watcher]
             (Closing.mkCState 0 0 false true true true false) _
             [Closing.LAbortClose] [] eq_refl).
    unfold Closing.init.
    eapply Closing.cs_cons; [apply Closing.st_abort; reflexivity|].
    eapply Closing.cs_cons; [apply Closing.st_watcher; reflexivity|].
    apply Closing.cs_nil.
Defined.

(** * Further properties of clamd.go *)

(** [Ping] looks at the first record only: it succeeds exactly when its
    raw text is [PONG], whatever follows, and otherwise fails with an
    error that prints the record. *)
Theorem Ping_first_record : forall E c t s rest,
  simpleCommand E c "PING" = (t, inr (s :: rest)) ->
  (Raw s = "PONG" -> Ping E c = (t, Ret tt)) /\
  (Raw s <> "PONG" -> Ping E c = (t, Fail ("Invalid response, got " ++ fmt_v s ++ "."))).
Proof.
  intros E c t s rest H; unfold Ping; rewrite H; simpl; split; intros Hr.
  - rewrite Hr; reflexivity.
  - apply String.eqb_neq in Hr; rewrite Hr; reflexivity.
Qed.

Lemma Ping_first_record_witness :
  Ping (tcp_env (map record_of_raw ["PONG"; "extra"])) tcp_client =
  (fst (simpleCommand (tcp_env (map record_of_raw ["PONG"; "extra"])) tcp_client "PING"),
   Ret tt).
Proof.
  apply (proj1 (Ping_first_record (tcp_env (map record_of_raw ["PONG"; "extra"])) tcp_client
           _ (record_of_raw "PONG") [record_of_raw "extra"] eq_refl)); reflexivity.
Defined.

(** [Reload] looks at the first record only: success exactly on
    [RELOADING], an error printing the record otherwise, and a nil
    pointer panic when the reply has no record. *)
Theorem Reload_first_record : forall E c t,
  (forall s rest, simpleCommand E c "RELOAD" = (t, inr (s :: rest)) ->
     (Raw s = "RELOADING" -> Reload E c = (t, Ret tt)) /\
     (Raw s <> "RELOADING" ->
        Reload E c = (t, Fail ("Invalid response, got " ++ fmt_v s ++ ".")))) /\
  (simpleCommand E c "RELOAD" = (t, inr []) ->
     Reload E c = (t, Panic "invalid memory address or nil pointer dereference")).
Proof.
  intros E c t; split.
  - intros s rest H; unfold Reload; rewrite H; simpl; split; intros Hr.
    + rewrite Hr; reflexivity.
    + apply String.eqb_neq in Hr; rewrite Hr; reflexivity.
  - intros H; unfold Reload; rewrite H; reflexivity.
Qed.

Lemma Reload_first_record_witness :
  Reload (tcp_env [record_of_raw "RELOADING"]) tcp_client =
  (fst (simpleCommand (tcp_env [record_of_raw "RELOADING"]) tcp_client "RELOAD"), Ret tt) /\
  Reload (tcp_env []) tcp_client =
  (fst (simpleCommand (tcp_env []) tcp_client "RELOAD"),
   Panic "invalid memory address or nil pointer dereference").
Proof.
  split.
  - apply (proj1 (proj1 (Reload_first_record (tcp_env [record_of_raw "RELOADING"])
             tcp_client _) (record_of_raw "RELOADING") [] eq_refl)); reflexivity.
  - apply (proj2 (Reload_first_record (tcp_env []) tcp_client _)); reflexivity.
Defined.

(** [Shutdown] never looks at the reply: it succeeds whenever the
    command was written, also on an empty reply, and returns the error of
    [simpleCommand] otherwise. *)
Theorem Shutdown_ignores_reply : forall E c,
  (forall t rs, simpleCommand E c "SHUTDOWN" = (t, inr rs) -> Shutdown E c = (t, Ret tt)) /\
  (forall t err, simpleCommand E c "SHUTDOWN" = (t, inl err) ->
     Shutdown E c = (t, Fail err)).
Proof.
  intros E c; split; intros t x H; unfold Shutdown; rewrite H; reflexivity.
Qed.

Lemma Shutdown_ignores_reply_witness :
  Shutdown (tcp_env []) tcp_client =
  (fst (simpleCommand (tcp_env []) tcp_client "SHUTDOWN"), Ret tt).
Proof.
  apply (proj1 (Shutdown_ignores_reply (tcp_env []) tcp_client) _ []); reflexivity.
Defined.

(** When the connection cannot be set up, [Ping], [Reload], [Stats] and
    [Shutdown] return the connection error and send no command. *)
Theorem connection_error_propagates : forall E c err,
  snd (newConnection E c) = Some err ->
  Ping E c = (fst (newConnection E c), Fail err) /\
  Reload E c = (fst (newConnection E c), Fail err) /\
  Stats_op E c = (fst (newConnection E c), Fail err) /\
  Shutdown E c = (fst (newConnection E c), Fail err) /\
  (forall cmd, ~ In (EvSendCommand cmd) (fst (newConnection E c))).
Proof.
  intros E c err H.
  unfold Ping, Reload, Stats_op, Shutdown, simpleCommand.
  destruct (newConnection E c) as [t0 r] eqn:Hn; simpl in H; subst r; simpl.
  repeat split; try reflexivity.
  intros cmd Hin.
  destruct (newConnection_events E c) as [Ht|[ep Ht]]; rewrite Hn in Ht; simpl in Ht;
    subst t0; simpl in Hin; intuition discriminate.
Qed.

Lemma connection_error_propagates_witness :
  Ping (mkEnv (fun _ => inr (mkURL "tcp" "127.0.0.1:3310" ""))
              (fun _ => Some "connection refused") (fun _ => None) []) tcp_client =
  ([EvParse "tcp://127.0.0.1:3310"; EvDial (TcpEndpoint "127.0.0.1:3310")],
   Fail "connection refused").
Proof.
  apply (connection_error_propagates
           (mkEnv (fun _ => inr (mkURL "tcp" "127.0.0.1:3310" ""))
                  (fun _ => Some "connection refused") (fun _ => None) [])
           tcp_client "connection refused"); reflexivity.
Defined.

(** [Version] and the five scan functions never return the error of
    [simpleCommand]: they receive from the nil channel first and block
    forever. When the command was written they return the first record. *)
Theorem single_record_ops_block_on_error : forall E c err t,
  simpleCommand E c "VERSION" = (t, inl err) -> Version E c = (t, Block).
Proof.
  intros E c err t H; unfold Version, first_record; rewrite H; reflexivity.
Qed.

Lemma single_record_ops_block_on_error_witness :
  Version (mkEnv (fun _ => inr (mkURL "tcp" "127.0.0.1:3310" ""))
                 (fun _ => Some "connection refused") (fun _ => None) []) tcp_client =
  ([EvParse "tcp://127.0.0.1:3310"; EvDial (TcpEndpoint "127.0.0.1:3310")], Block).
Proof.
  apply (single_record_ops_block_on_error _ _ "connection refused"); reflexivity.
Defined.

Theorem scan_op_blocks_on_error : forall v E c path err t,
  simpleCommand E c (variant_word v ++ " " ++ path) = (t, inl err) ->
  scan_op v E c path = (t, Block).
Proof.
  intros v E c path err t H.
  assert (Hsc : scan_op v E c path = first_record E c (variant_word v ++ " " ++ path))
    by (destruct v; reflexivity).
  rewrite Hsc; unfold first_record; rewrite H; reflexivity.
Qed.

Lemma scan_op_blocks_on_error_witness :
  scan_op SCAN (mkEnv (fun _ => inr (mkURL "tcp" "127.0.0.1:3310" ""))
                      (fun _ => None) (fun _ => Some "broken pipe") []) tcp_client "/tmp/x" =
  ([EvParse "tcp://127.0.0.1:3310"; EvDial (TcpEndpoint "127.0.0.1:3310");
    EvSendCommand "SCAN /tmp/x"], Block).
Proof.
  apply (scan_op_blocks_on_error SCAN _ _ "/tmp/x" "broken pipe"); reflexivity.
Defined.

(** [Stats] on a reply without records succeeds with every field empty. *)
Theorem Stats_empty_reply : forall E c t,
  simpleCommand E c "STATS" = (t, inr []) -> Stats_op E c = (t, Ret empty_Stats).
Proof. intros E c t H; unfold Stats_op; rewrite H; reflexivity. Qed.

Lemma Stats_empty_reply_witness :
  Stats_op (tcp_env []) tcp_client =
  (fst (simpleCommand (tcp_env []) tcp_client "STATS"), Ret empty_Stats).
Proof. apply Stats_empty_reply; reflexivity. Defined.

(** ** Classification of STATS records *)

Lemma HasPrefix_app : forall p s, HasPrefix s p = true -> exists r, s = p ++ r.
Proof.
  unfold HasPrefix; induction p as [|a p IH]; intros s H.
  - exists s; reflexivity.
  - destruct s as [|b s]; simpl in H; [discriminate|].
    destruct (ascii_dec a b) as [->|]; [|discriminate].
    destruct (IH s H) as [r ->]; exists r; reflexivity.
Qed.

(** Records that start with [END] can be dropped anywhere from a STATS
    reply without changing the result of [Stats]. *)
Theorem Stats_end_is_noop : forall E c t pre s post,
  simpleCommand E c "STATS" = (t, inr (pre ++ s :: post)%list) ->
  HasPrefix (Raw s) "END" = true ->
  Stats_op E c = (t, stats_loop empty_Stats (pre ++ post)%list).
Proof.
  intros E c t pre s post Hc He; unfold Stats_op; rewrite Hc, !stats_loop_app.
  destruct (stats_loop empty_Stats pre); try reflexivity.
  destruct (HasPrefix_app _ _ He) as [r Hr]; simpl; rewrite Hr.
  unfold HasPrefix; simpl; destruct r; reflexivity.
Qed.

Lemma Stats_end_is_noop_witness :
  Stats_op (tcp_env (map record_of_raw ["STATE: VALID"; "END"; "QUEUE: 0"])) tcp_client =
  (fst (simpleCommand (tcp_env (map record_of_raw ["STATE: VALID"; "END"; "QUEUE: 0"]))
                      tcp_client "STATS"),
   stats_loop empty_Stats (map record_of_raw ["STATE: VALID"; "QUEUE: 0"])).
Proof.
  apply (Stats_end_is_noop _ _ _ [record_of_raw "STATE: VALID"] (record_of_raw "END")
           [record_of_raw "QUEUE: 0"]); reflexivity.
Defined.

(** The first record that starts with none of the six prefixes makes
    [Stats] fail with an error printing that record; the records after it
    are not looked at. *)
Theorem Stats_first_unknown_fails : forall E c t pre s post st0,
  simpleCommand E c "STATS" = (t, inr (pre ++ s :: post)%list) ->
  stats_loop empty_Stats pre = Ret st0 ->
  (forall p, In p ["POOLS"; "STATE"; "THREADS"; "QUEUE"; "MEMSTATS"; "END"] ->
     HasPrefix (Raw s) p = false) ->
  Stats_op E c = (t, Fail ("Unknown response, got " ++ fmt_v s ++ ".")).
Proof.
  intros E c t pre s post st0 Hc Hpre Hn; unfold Stats_op.
  rewrite Hc, stats_loop_app, Hpre; simpl.
  rewrite !Hn by (simpl; tauto); reflexivity.
Qed.

Lemma Stats_first_unknown_fails_witness :
  Stats_op (tcp_env (map record_of_raw ["STATE: VALID"; "BOGUS: x"; "POOLS"])) tcp_client =
  (fst (simpleCommand (tcp_env (map record_of_raw ["STATE: VALID"; "BOGUS: x"; "POOLS"]))
                      tcp_client "STATS"),
   Fail ("Unknown response, got " ++ fmt_v (record_of_raw "BOGUS: x") ++ ".")).
Proof.
  apply (Stats_first_unknown_fails _ _ _ [record_of_raw "STATE: VALID"]
           (record_of_raw "BOGUS: x") [record_of_raw "POOLS"]
           (mkStats "" "STATE: VALID" "" "" "")); [reflexivity|reflexivity|].
  intros p Hp; simpl in Hp; intuition (subst; reflexivity).
Defined.

Lemma prefix_empty : forall r, String.prefix "" r = true.
Proof. destruct r; reflexivity. Qed.

(** [stats_loop] over records of other kinds leaves a field unchanged. *)
Ltac keep_tac :=
  let post := fresh "post" in
  intros post; induction post as [|r post IH]; intros st st' H HF;
  [simpl in H; congruence|];
  inversion HF as [|? ? Hr HF']; subst; simpl in H;
  repeat match type of H with
  | context [if ?b then _ else _] => destruct b eqn:?
  | context [match ?m with Some _ => _ | None => _ end] => destruct m
  end;
  try discriminate; try congruence;
  rewrite (IH _ _ H HF'); reflexivity.

Lemma stats_loop_keeps_Pools : forall post st st', stats_loop st post = Ret st' ->
  Forall (fun r => HasPrefix (Raw r) "POOLS" = false) post -> Pools st' = Pools st.
Proof. keep_tac. Qed.

Lemma stats_loop_keeps_State : forall post st st', stats_loop st post = Ret st' ->
  Forall (fun r => HasPrefix (Raw r) "STATE" = false) post -> State st' = State st.
Proof. keep_tac. Qed.

Lemma stats_loop_keeps_Threads : forall post st st', stats_loop st post = Ret st' ->
  Forall (fun r => HasPrefix (Raw r) "THREADS" = false) post -> Threads st' = Threads st.
Proof. keep_tac. Qed.

Lemma stats_loop_keeps_Queue : forall post st st', stats_loop st post = Ret st' ->
  Forall (fun r => HasPrefix (Raw r) "QUEUE" = false) post -> Queue st' = Queue st.
Proof. keep_tac. Qed.

Lemma stats_loop_keeps_Memstats : forall post st st', stats_loop st post = Ret st' ->
  Forall (fun r => HasPrefix (Raw r) "MEMSTATS" = false) post -> Memstats st' = Memstats st.
Proof. keep_tac. Qed.

(** When [Stats] succeeds, each field holds what the last record of its
    kind set: the raw text for STATE, THREADS, QUEUE and MEMSTATS, and the
    text after the sixth byte, trimmed of spaces, for POOLS. *)
Theorem Stats_last_record_wins : forall E c t pre s post st',
  simpleCommand E c "STATS" = (t, inr (pre ++ s :: post)%list) ->
  Stats_op E c = (t, Ret st') ->
  (forall x, HasPrefix (Raw s) "POOLS" = true -> slice_from 6 (Raw s) = Some x ->
     Forall (fun r => HasPrefix (Raw r) "POOLS" = false) post -> Pools st' = Trim_space x) /\
  (HasPrefix (Raw s) "STATE" = true ->
     Forall (fun r => HasPrefix (Raw r) "STATE" = false) post -> State st' = Raw s) /\
  (HasPrefix (Raw s) "THREADS" = true ->
     Forall (fun r => HasPrefix (Raw r) "THREADS" = false) post -> Threads st' = Raw s) /\
  (HasPrefix (Raw s) "QUEUE" = true ->
     Forall (fun r => HasPrefix (Raw r) "QUEUE" = false) post -> Queue st' = Raw s) /\
  (HasPrefix (Raw s) "MEMSTATS" = true ->
     Forall (fun r => HasPrefix (Raw r) "MEMSTATS" = false) post -> Memstats st' = Raw s).
Proof.
  intros E c t pre s post st' Hc Hs.
  unfold Stats_op in Hs; rewrite Hc in Hs; injection Hs as Hs.
  rewrite stats_loop_app in Hs.
  destruct (stats_loop empty_Stats pre) as [st0| | |]; try discriminate.
  simpl in Hs.
  repeat split.
  - intros x Hp Hx HF. rewrite Hp, Hx in Hs.
    rewrite (stats_loop_keeps_Pools _ _ _ Hs HF); reflexivity.
  - intros Hp HF. destruct (HasPrefix_app _ _ Hp) as [r Hr]. rewrite Hr in Hs |- *.
    unfold HasPrefix in Hs; simpl in Hs; rewrite prefix_empty in Hs.
    rewrite (stats_loop_keeps_State _ _ _ Hs HF); reflexivity.
  - intros Hp HF. destruct (HasPrefix_app _ _ Hp) as [r Hr]. rewrite Hr in Hs |- *.
    unfold HasPrefix in Hs; simpl in Hs; rewrite prefix_empty in Hs.
    rewrite (stats_loop_keeps_Threads _ _ _ Hs HF); reflexivity.
  - intros Hp HF. destruct (HasPrefix_app _ _ Hp) as [r Hr]. rewrite Hr in Hs |- *.
    unfold HasPrefix in Hs; simpl in Hs; rewrite prefix_empty in Hs.
    rewrite (stats_loop_keeps_Queue _ _ _ Hs HF); reflexivity.
  - intros Hp HF. destruct (HasPrefix_app _ _ Hp) as [r Hr]. rewrite Hr in Hs |- *.
    unfold HasPrefix in Hs; simpl in Hs; rewrite prefix_empty in Hs.
    rewrite (stats_loop_keeps_Memstats _ _ _ Hs HF); reflexivity.
Qed.

Lemma Stats_last_record_wins_witness :
  snd (Stats_op (tcp_env (map record_of_raw ["STATE: VALID"; "STATE: RELOADING"; "END"]))
                tcp_client) = Ret (mkStats "" "STATE: RELOADING" "" "" "") /\
  State (mkStats "" "STATE: RELOADING" "" "" "") = "STATE: RELOADING".
Proof.
  split; [reflexivity|].
  refine ((proj1 (proj2 (Stats_last_record_wins
            (tcp_env (map record_of_raw ["STATE: VALID"; "STATE: RELOADING"; "END"]))
            tcp_client _ [record_of_raw "STATE: VALID"] (record_of_raw "STATE: RELOADING")
            [record_of_raw "END"] (mkStats "" "STATE: RELOADING" "" "" "") eq_refl eq_refl)))
            eq_refl _).
  repeat constructor.
Defined.

(** ** [strings.Trim(s, " ")] leaves no space at either end *)

Lemma las_app : forall a b,
  list_ascii_of_string (a ++ b) = (list_ascii_of_string a ++ list_ascii_of_string b)%list.
Proof. induction a as [|x a IH]; intros b; simpl; [reflexivity|rewrite IH; reflexivity]. Qed.

Lemma las_rev_string : forall s,
  list_ascii_of_string (rev_string s) = rev (list_ascii_of_string s).
Proof. intros s; unfold rev_string; apply list_ascii_of_string_of_list_ascii. Qed.

Lemma las_cons : forall s c l,
  list_ascii_of_string s = c :: l -> exists r, s = String c r.
Proof. intros [|c' r] c l H; simpl in H; [discriminate|injection H as -> _; eauto]. Qed.

Lemma trim_left_space_head : forall s c r, trim_left_space s = String c r -> c <> " "%char.
Proof.
  induction s as [|a s IH]; intros c r H; simpl in H; [discriminate|].
  destruct (Ascii.eqb a " "%char) eqn:Ha; [eauto|].
  injection H as -> _. intros ->. discriminate.
Qed.

Lemma trim_left_space_suffix : forall s, exists p, s = p ++ trim_left_space s.
Proof.
  induction s as [|a s [p Hp]]; simpl; [exists ""; reflexivity|].
  destruct (Ascii.eqb a " "%char); [exists (String a p); simpl; f_equal; exact Hp|].
  exists ""; reflexivity.
Qed.

Lemma Trim_space_edges : forall s,
  (forall c r, Trim_space s = String c r -> c <> " "%char) /\
  (forall r c, Trim_space s = r ++ String c "" -> c <> " "%char).
Proof.
  intros s; unfold Trim_space.
  set (x := trim_left_space s).
  set (y := trim_left_space (rev_string x)).
  destruct (trim_left_space_suffix (rev_string x)) as [p Hp]; fold y in Hp.
  split.
  - intros c r H.
    apply (f_equal list_ascii_of_string) in H, Hp.
    rewrite las_rev_string in H. rewrite las_rev_string, las_app in Hp.
    assert (Hx : list_ascii_of_string x =
                 (rev (list_ascii_of_string y) ++ rev (list_ascii_of_string p))%list).
    { rewrite <- rev_app_distr, <- Hp, rev_involutive; reflexivity. }
    rewrite H in Hx; simpl in Hx.
    destruct (las_cons _ _ _ Hx) as [r' Hr'].
    exact (trim_left_space_head s c r' Hr').
  - intros r c H.
    apply (f_equal list_ascii_of_string) in H.
    rewrite las_rev_string, las_app in H; simpl in H.
    assert (Hy : list_ascii_of_string y = c :: rev (list_ascii_of_string r)).
    { rewrite <- (rev_involutive (list_ascii_of_string y)), H, rev_app_distr; reflexivity. }
    destruct (las_cons _ _ _ Hy) as [r' Hr'].
    exact (trim_left_space_head _ c r' Hr').
Qed.

Lemma stats_loop_Pools : forall rs st st', stats_loop st rs = Ret st' ->
  Pools st' = Pools st \/ exists x, Pools st' = Trim_space x.
Proof.
  induction rs as [|r rs IH]; intros st st' H; simpl in H; [left; congruence|].
  repeat match type of H with
  | context [if ?b then _ else _] => destruct b
  | context [match ?m with Some _ => _ | None => _ end] => destruct m
  end; try discriminate;
  destruct (IH _ _ H) as [Hp|Hp]; simpl in Hp; eauto.
Qed.

(** The [Pools] field of a successful [Stats] neither starts nor ends
    with a space. *)
Theorem Stats_Pools_trimmed : forall E c t st',
  Stats_op E c = (t, Ret st') ->
  (forall ch r, Pools st' = String ch r -> ch <> " "%char) /\
  (forall r ch, Pools st' = r ++ String ch "" -> ch <> " "%char).
Proof.
  intros E c t st' H; unfold Stats_op in H.
  destruct (simpleCommand E c "STATS") as [t0 [err|rs]]; injection H as _ H; [discriminate|].
  destruct (stats_loop_Pools _ _ _ H) as [Hp|[x Hp]]; simpl in Hp; rewrite Hp.
  - split; [discriminate|]. intros r ch Hr.
    apply (f_equal list_ascii_of_string) in Hr. rewrite las_app in Hr; simpl in Hr.
    destruct (app_cons_not_nil _ _ _ Hr).
  - apply Trim_space_edges.
Qed.

Lemma Stats_Pools_trimmed_witness :
  snd (Stats_op (tcp_env [record_of_raw "POOLS:   3  "]) tcp_client) =
    Ret (mkStats "3" "" "" "" "") /\
  "3"%char <> " "%char.
Proof.
  split; [reflexivity|].
  apply (proj1 (Stats_Pools_trimmed (tcp_env [record_of_raw "POOLS:   3  "]) tcp_client
           (fst (Stats_op (tcp_env [record_of_raw "POOLS:   3  "]) tcp_client))
           (mkStats "3" "" "" "" "") eq_refl) "3"%char ""); reflexivity.
Defined.

(** ** The INSTREAM upload *)

Lemma read_chunk_id : forall CS d, read_chunk CS d = d.
Proof.
  intros CS d; unfold read_chunk.
  rewrite firstn_app, Nat.sub_diag, firstn_O, app_nil_r, firstn_all; reflexivity.
Qed.

Lemma upload_loop_stream : forall CS E ca pre st post k,
  (forall i, k <= i -> conn_write E ca i = None) ->
  Forall (fun st => rd_data st <> [] \/ rd_err st = None) pre ->
  rd_data st = [] -> rd_err st <> None ->
  upload_loop CS E ca k (pre ++ st :: post)%list =
    (map EvSendChunk (filter (fun d => Nat.ltb 0 (List.length d)) (map rd_data pre)),
     Some (k + List.length (filter (fun d => Nat.ltb 0 (List.length d)) (map rd_data pre)))).
Proof.
  intros CS E ca pre st post; induction pre as [|s pre IH]; intros k Hw HF Hd He; simpl.
  - rewrite Hd; simpl. destruct (rd_err st); [|congruence].
    rewrite Nat.add_0_r; reflexivity.
  - inversion HF as [|? ? Hs HF']; subst.
    destruct (Nat.ltb 0 (List.length (rd_data s))) eqn:Hlt.
    + rewrite (Hw k) by lia. rewrite (IH (S k)); [|intros i Hi; apply Hw; lia|exact HF'|exact Hd|exact He].
      simpl; rewrite read_chunk_id, Nat.add_succ_r; reflexivity.
    + destruct Hs as [Hs|Hs].
      * apply Nat.ltb_ge in Hlt. destruct (rd_data s); [congruence|simpl in Hlt; lia].
      * rewrite Hs, (IH k); auto.
Qed.

(** With a connection on which every write succeeds and no cancellation,
    [ScanStream] uploads the reader's data unchanged: one chunk per read
    that returned data, in order, up to the first read that returns no
    data and an error (a read returning data together with an error, such
    as [io.EOF], does not end the loop); then it sends the terminator and
    returns the reply. *)
Theorem ScanStream_uploads_reader : forall CS E c pre st post,
  snd (newConnection E c) = None ->
  (forall i, e_write E i = None) ->
  Forall (fun st => rd_data st <> [] \/ rd_err st = None) pre ->
  rd_data st = [] -> rd_err st <> None ->
  ScanStream CS E c None (pre ++ st :: post)%list =
    ((fst (newConnection E c) ++ EvSendCommand "INSTREAM" ::
      map EvSendChunk (filter (fun d => Nat.ltb 0 (List.length d)) (map rd_data pre)) ++
      [EvSendEOF; EvReadResponse])%list,
     Ret (e_reply E)).
Proof.
  intros CS E c pre st post Hn Hw HF Hd He; unfold ScanStream.
  destruct (newConnection E c) as [t0 r]; simpl in Hn |- *; subst r.
  unfold conn_write; rewrite Hw.
  rewrite (upload_loop_stream CS E None pre st post 1); auto.
  - rewrite Hw, <- !app_assoc; reflexivity.
  - intros i _; apply Hw.
Qed.

Lemma ScanStream_uploads_reader_witness :
  ScanStream 4 (tcp_env [record_of_raw "stream: OK"]) tcp_client None
    [mkRead [x41; x42] (Some "EOF"); mkRead [] None; mkRead [x43] None; mkRead [] (Some "EOF")] =
  ([EvParse "tcp://127.0.0.1:3310"; EvDial (TcpEndpoint "127.0.0.1:3310");
    EvSendCommand "INSTREAM"; EvSendChunk [x41; x42]; EvSendChunk [x43];
    EvSendEOF; EvReadResponse], Ret [record_of_raw "stream: OK"]).
Proof.
  apply (ScanStream_uploads_reader 4 (tcp_env [record_of_raw "stream: OK"]) tcp_client
           [mkRead [x41; x42] (Some "EOF"); mkRead [] None; mkRead [x43] None]
           (mkRead [] (Some "EOF")) []).
  - reflexivity.
  - reflexivity.
  - constructor; [left; discriminate|].
    constructor; [right; reflexivity|].
    constructor; [left; discriminate|constructor].
  - reflexivity.
  - discriminate.
Defined.




(** [ScanStream] returns an error, and no channel, when the connection
    cannot be set up (nothing is written), when the [INSTREAM] write fails
    (no chunk is written), or when the terminator write fails. *)
Theorem ScanStream_setup_errors : forall CS E c ca script,
  (forall err, snd (newConnection E c) = Some err ->
     ScanStream CS E c ca script = (fst (newConnection E c), Fail err)) /\
  (forall err, snd (newConnection E c) = None -> conn_write E ca 0 = Some err ->
     ScanStream CS E c ca script =
       ((fst (newConnection E c) ++ [EvSendCommand "INSTREAM"])%list, Fail err)) /\
  (forall err tl k, snd (newConnection E c) = None -> conn_write E ca 0 = None ->
     upload_loop CS E ca 1 script = (tl, Some k) -> conn_write E ca k = Some err ->
     ScanStream CS E c ca script =
       ((fst (newConnection E c) ++ EvSendCommand "INSTREAM" :: tl ++ [EvSendEOF])%list,
        Fail err)).
Proof.
  intros CS E c ca script; unfold ScanStream.
  destruct (newConnection E c) as [t0 r]; simpl.
  repeat split.
  - intros err ->; reflexivity.
  - intros err -> H; rewrite H; reflexivity.
  - intros err tl k -> H Hu Hk; rewrite H, Hu, Hk, <- !app_assoc; reflexivity.
Qed.

Lemma ScanStream_setup_errors_witness :
  ScanStream 4 (mkEnv (fun _ => inr (mkURL "tcp" "127.0.0.1:3310" ""))
                      (fun _ => None) (fun _ => Some "broken pipe") []) tcp_client None
             [mkRead [x41] None] =
  ([EvParse "tcp://127.0.0.1:3310"; EvDial (TcpEndpoint "127.0.0.1:3310");
    EvSendCommand "INSTREAM"], Fail "broken pipe").
Proof.
  apply (proj1 (proj2 (ScanStream_setup_errors 4
           (mkEnv (fun _ => inr (mkURL "tcp" "127.0.0.1:3310" ""))
                  (fun _ => None) (fun _ => Some "broken pipe") [])
           tcp_client None [mkRead [x41] None])) "broken pipe"); reflexivity.
Defined.

(** ** How often the connection is closed *)

Lemma count_close_no_watcher : forall n s tr s',
  Closing.csteps false n s tr s' ->
  count_close tr + Nat.b2n (Closing.c_closer_fired s) = Nat.b2n (Closing.c_closer_fired s').
Proof.
  induction 1 as [s|s l s1 tr s2 Hst Hs IH]; [reflexivity|].
  inversion Hst; subst; simpl in *; try discriminate; lia.
Qed.

(** For the commands of [simpleCommand] the connection is closed at most
    once, in every interleaving. *)
Theorem simpleCommand_closes_at_most_once : forall n tr s,
  Closing.csteps false n Closing.init tr s -> count_close tr <= 1.
Proof.
  intros n tr s H; pose proof (count_close_no_watcher _ _ _ _ H) as Hc.
  simpl in Hc; destruct (Closing.c_closer_fired s); simpl in Hc; lia.
Qed.

Lemma simpleCommand_closes_at_most_once_witness :
  count_close [Closing.LRead; Closing.LDeliver 1; Closing.LDone; Closing.LClose Closing.Closer]
  <= 1.
Proof.
  apply (simpleCommand_closes_at_most_once 1 _ (Closing.mkCState 1 1 true true false false true)).
  unfold Closing.init.
  eapply Closing.cs_cons; [apply Closing.st_read; lia|].
  eapply Closing.cs_cons; [apply Closing.st_deliver; reflexivity|].
  eapply Closing.cs_cons; [apply Closing.st_eof; reflexivity|].
  eapply Closing.cs_cons; [apply Closing.st_closer|].
  apply Closing.cs_nil.
Defined.

(** In [ScanStream], whatever the length of the reply, some interleaving
    closes the connection twice: once by the abort watcher and once by
    the closer task. *)
Theorem ScanStream_can_close_twice : forall n,
  exists tr s, Closing.csteps true n Closing.init tr s /\ count_close tr = 2.
Proof.
  intros [|n].
  - exists [Closing.LDone; Closing.LClose Closing.Closer; Closing.LAbortClose;
            Closing.LClose Closing.Watcher]; eexists; split; [|reflexivity].
    unfold Closing.init.
    eapply Closing.cs_cons; [apply Closing.st_eof; reflexivity|].
    eapply Closing.cs_cons; [apply Closing.st_closer|].
    eapply Closing.cs_cons; [apply Closing.st_abort; reflexivity|].
    eapply Closing.cs_cons; [apply Closing.st_watcher; reflexivity|].
    apply Closing.cs_nil.
  - exists [Closing.LAbortClose; Closing.LClose Closing.Watcher; Closing.LDone;
            Closing.LClose Closing.Closer]; eexists; split; [|reflexivity].
    unfold Closing.init.
    eapply Closing.cs_cons; [apply Closing.st_abort; reflexivity|].
    eapply Closing.cs_cons; [apply Closing.st_watcher; reflexivity|].
    eapply Closing.cs_cons; [apply Closing.st_readfail; lia|].
    eapply Closing.cs_cons; [apply Closing.st_closer|].
    apply Closing.cs_nil.
Qed.

(** [ScanStream] parses the address once, as its first action. *)
Theorem ScanStream_parses_once : forall CS E c ca script,
  exists rest, fst (ScanStream CS E c ca script) = EvParse (address c) :: rest /\
               count_parse rest = 0.
Proof.
  intros CS E c ca script; exact (ScanStream_parse_head CS E c ca script).
Qed.
